(** * quantum_sim: the rectangular-barrier solver and wavefunction sampler

    Two shallow embeddings of [src/utils/physics.ts].

    - The exact reading (top level).  A TypeScript [number] is read as a
      real number: every arithmetic operation and every call to
      [Math.sqrt], [Math.sin], [Math.cos], [Math.sinh], [Math.cosh] and
      [Math.exp] is the exact real operation.  It states what the formulas
      of the code compute; rounding, overflow and the IEEE special values
      are outside it.  Comparisons ([<], [<=], [===]) are the decidable
      comparisons on [R], returned as [bool].

    - The binary64 reading (module [B64]).  A [number] is an IEEE binary64
      value; [+ - * /], [Math.sqrt], [Math.abs] and the comparisons are the
      IEEE operations, and the functions of [Math] that ECMAScript leaves
      to the implementation are a parameter, constrained only where
      ECMAScript fixes their result.  It states what the code returns,
      overflow and NaN included. *)

From Stdlib Require Import Reals Lra Bool RNsatz.
From Stdlib Require PrimFloat.

Local Open Scope R_scope.

(** ** Numbers and comparisons *)

Definition ltb (a b : R) : bool := if Rlt_dec a b then true else false.
Definition leb (a b : R) : bool := if Rle_dec a b then true else false.
Definition geb (a b : R) : bool := if Rge_dec a b then true else false.
Definition eqb (a b : R) : bool := if Req_dec_T a b then true else false.

(** [Math.pow(x, 2)] *)
Definition Math_pow2 (x : R) : R := x ^ 2.

(** ** Complex helpers (physics.ts, lines 4-20) *)

Record Complex : Type := mkComplex { re : R; im : R }.

Module Cx.

Definition add (a b : Complex) : Complex :=
  {| re := re a + re b; im := im a + im b |}.

Definition sub (a b : Complex) : Complex :=
  {| re := re a - re b; im := im a - im b |}.

Definition mul (a b : Complex) : Complex :=
  {| re := re a * re b - im a * im b; im := re a * im b + im a * re b |}.

Definition div (a b : Complex) : Complex :=
  let denom := re b * re b + im b * im b in
  if eqb denom 0 then {| re := 0; im := 0 |}
  else {| re := (re a * re b + im a * im b) / denom;
          im := (im a * re b - re a * im b) / denom |}.

Definition exp (a : Complex) : Complex :=
  let ea := Rtrigo_def.exp (re a) in
  {| re := ea * cos (im a); im := ea * sin (im a) |}.

End Cx.

(** Squared modulus, the quantity the sampler returns as [prob]. *)
Definition normSq (z : Complex) : R := re z * re z + im z * im z.

(** ** Parameters and coefficients (types.ts) *)

Record SimulationParams : Type := mkParams {
  energy : R;
  barrierHeight : R;
  barrierWidth : R;
  mass : R
}.

Record WaveCoefficients : Type := mkCoeffs {
  r : Complex;
  t : Complex;
  c1 : Complex;
  c2 : Complex;
  k1 : R;
  k2 : R;
  isTunneling : bool;
  transmissionProb : R
}.

(** ** solveSchrodinger (physics.ts, lines 23-124) *)

(** The energy after the guard of lines 26-29. *)
Definition perturbedEnergy (E V0 : R) : R :=
  if ltb (Rabs (E - V0)) 1e-4 then E + 1e-3 else E.

Definition hbar : R := 1.

Definition solveSchrodinger (params : SimulationParams) : WaveCoefficients :=
  let V0 := barrierHeight params in
  let L := barrierWidth params in
  let m := mass params in
  let E := perturbedEnergy (energy params) V0 in
  let k1 := sqrt (2 * m * E) / hbar in
  if ltb E V0 then
    let kappa := sqrt (2 * m * (V0 - E)) / hbar in
    let term := (V0 * V0 * Math_pow2 (sinh (kappa * L))) / (4 * E * (V0 - E)) in
    let T_prob := 1 / (1 + term) in
    let kappaL := kappa * L in
    let coshKL := cosh kappaL in
    let sinhKL := sinh kappaL in
    let gamma := (k1 * k1 - kappa * kappa) / (2 * k1 * kappa) in
    let D := {| re := coshKL; im := - gamma * sinhKL |} in
    let num := {| re := cos (- k1 * L); im := sin (- k1 * L) |} in
    let t := Cx.div num D in
    let gamma_plus := (kappa * kappa + k1 * k1) / (2 * k1 * kappa) in
    let r_num := {| re := 0; im := gamma_plus * sinhKL |} in
    let r := Cx.div r_num D in
    let onePlusR := Cx.add {| re := 1; im := 0 |} r in
    let term2 :=
      Cx.mul {| re := 0; im := k1 / kappa |} (Cx.sub {| re := 1; im := 0 |} r) in
    let twoC2 := Cx.add onePlusR term2 in
    let twoC1 := Cx.sub onePlusR term2 in
    let c2 := {| re := re twoC2 / 2; im := im twoC2 / 2 |} in
    let c1 := {| re := re twoC1 / 2; im := im twoC1 / 2 |} in
    {| r := r; t := t; c1 := c1; c2 := c2; k1 := k1; k2 := kappa;
       isTunneling := true; transmissionProb := T_prob |}
  else
    let k_prime := sqrt (2 * m * (E - V0)) / hbar in
    let T_prob :=
      if eqb k_prime 0 then 0
      else
        let term :=
          (V0 * V0 * Math_pow2 (sin (k_prime * L))) / (4 * E * (E - V0)) in
        1 / (1 + term) in
    let kL := k_prime * L in
    let cosKL := cos kL in
    let sinKL := sin kL in
    let gamma := (k1 * k1 + k_prime * k_prime) / (2 * k1 * k_prime) in
    let D := {| re := cosKL; im := - gamma * sinKL |} in
    let num_t := {| re := cos (- k1 * L); im := sin (- k1 * L) |} in
    let t := Cx.div num_t D in
    let gamma_minus := (k1 * k1 - k_prime * k_prime) / (2 * k1 * k_prime) in
    let num_r := {| re := 0; im := gamma_minus * sinKL |} in
    let r := Cx.div num_r D in
    let term2 :=
      Cx.mul {| re := k1 / k_prime; im := 0 |} (Cx.sub {| re := 1; im := 0 |} r) in
    let onePlusR := Cx.add {| re := 1; im := 0 |} r in
    let twoC1 := Cx.add onePlusR term2 in
    let twoC2 := Cx.sub onePlusR term2 in
    let c1 := {| re := re twoC1 / 2; im := im twoC1 / 2 |} in
    let c2 := {| re := re twoC2 / 2; im := im twoC2 / 2 |} in
    {| r := r; t := t; c1 := c1; c2 := c2; k1 := k1; k2 := k_prime;
       isTunneling := false; transmissionProb := T_prob |}.

(** ** getWaveFunctionAt (physics.ts, lines 126-177) *)

Record Sample : Type := mkSample { real : R; prob : R; V : R }.

(** The region dispatch of lines 137-166: the spatial value [psi] together
    with the local potential [V]. *)
Definition regionValue (x : R) (params : SimulationParams)
  (coeffs : WaveCoefficients) : Complex * R :=
  let L := barrierWidth params in
  let V0 := barrierHeight params in
  if ltb x 0 then
    let inc := {| re := cos (k1 coeffs * x); im := sin (k1 coeffs * x) |} in
    let refArg := - k1 coeffs * x in
    let refPart := Cx.mul (r coeffs) {| re := cos refArg; im := sin refArg |} in
    (Cx.add inc refPart, 0)
  else if geb x 0 && leb x L then
    if isTunneling coeffs then
      let term1 :=
        Cx.mul (c1 coeffs) {| re := Rtrigo_def.exp (- k2 coeffs * x); im := 0 |} in
      let term2 :=
        Cx.mul (c2 coeffs) {| re := Rtrigo_def.exp (k2 coeffs * x); im := 0 |} in
      (Cx.add term1 term2, V0)
    else
      let arg1 := k2 coeffs * x in
      let term1 := Cx.mul (c1 coeffs) {| re := cos arg1; im := sin arg1 |} in
      let arg2 := - k2 coeffs * x in
      let term2 := Cx.mul (c2 coeffs) {| re := cos arg2; im := sin arg2 |} in
      (Cx.add term1 term2, V0)
  else
    let arg := k1 coeffs * x in
    let transPart := Cx.mul (t coeffs) {| re := cos arg; im := sin arg |} in
    (transPart, 0).

(** The time-evolution factor of lines 130-132. *)
Definition timePhase (time : R) (params : SimulationParams) : Complex :=
  let omega := energy params in
  {| re := cos (- omega * time); im := sin (- omega * time) |}.

(** The local [psiT] of line 169: the complex wavefunction value. *)
Definition psiT (x time : R) (params : SimulationParams)
  (coeffs : WaveCoefficients) : Complex :=
  Cx.mul (fst (regionValue x params coeffs)) (timePhase time params).

Definition getWaveFunctionAt (x time : R) (params : SimulationParams)
  (coeffs : WaveCoefficients) : Sample :=
  let psiT := psiT x time params coeffs in
  {| real := re psiT;
     prob := re psiT * re psiT + im psiT * im psiT;
     V := snd (regionValue x params coeffs) |}.

(** ** The input domain of the solver *)

Definition valid (p : SimulationParams) : Prop :=
  0 < energy p /\ 0 <= barrierHeight p /\ 0 < barrierWidth p /\ 0 < mass p.

(** ** Vocabulary of the statements *)

(** The energy the formulas of [solveSchrodinger] are evaluated at. *)
Definition effEnergy (p : SimulationParams) : R :=
  perturbedEnergy (energy p) (barrierHeight p).

(** Modulus of a complex number and one-sided limits *)

(** Modulus of a complex number. *)
Definition Cmod (z : Complex) : R := sqrt (normSq z).

(** One-sided limits of a complex-valued function of position. *)
Definition limit_from_below (f : R -> Complex) (a : R) (l : Complex) : Prop :=
  forall eps : R, 0 < eps ->
  exists delta : R, 0 < delta /\
    forall x : R, a - delta < x < a -> Cmod (Cx.sub (f x) l) < eps.

Definition limit_from_above (f : R -> Complex) (a : R) (l : Complex) : Prop :=
  forall eps : R, 0 < eps ->
  exists delta : R, 0 < delta /\
    forall x : R, a < x < a + delta -> Cmod (Cx.sub (f x) l) < eps.

(** The region-I and region-III expressions of [getWaveFunctionAt], as
    functions of position on the whole line. *)
Definition regionI (c : WaveCoefficients) (x : R) : Complex :=
  Cx.add {| re := cos (k1 c * x); im := sin (k1 c * x) |}
         (Cx.mul (r c) {| re := cos (- k1 c * x); im := sin (- k1 c * x) |}).

Definition regionIII (c : WaveCoefficients) (x : R) : Complex :=
  Cx.mul (t c) {| re := cos (k1 c * x); im := sin (k1 c * x) |}.

(** The interior coefficients as lines 70-78 (tunneling) and 112-120
    (scattering) build them, as a function of the reflection amplitude. *)
Definition interiorCoeffs (tunneling : bool) (k1 k2 : R) (r : Complex)
  : Complex * Complex :=
  let onePlusR := Cx.add {| re := 1; im := 0 |} r in
  if tunneling then
    let term2 :=
      Cx.mul {| re := 0; im := k1 / k2 |} (Cx.sub {| re := 1; im := 0 |} r) in
    let twoC2 := Cx.add onePlusR term2 in
    let twoC1 := Cx.sub onePlusR term2 in
    ({| re := re twoC1 / 2; im := im twoC1 / 2 |},
     {| re := re twoC2 / 2; im := im twoC2 / 2 |})
  else
    let term2 :=
      Cx.mul {| re := k1 / k2; im := 0 |} (Cx.sub {| re := 1; im := 0 |} r) in
    let twoC1 := Cx.add onePlusR term2 in
    let twoC2 := Cx.sub onePlusR term2 in
    ({| re := re twoC1 / 2; im := im twoC1 / 2 |},
     {| re := re twoC2 / 2; im := im twoC2 / 2 |}).

(** A coefficient set with another reflection amplitude, the interior
    coefficients rebuilt from it and everything else kept. *)
Definition withReflection (c : WaveCoefficients) (r' : Complex)
  : WaveCoefficients :=
  let cs := interiorCoeffs (isTunneling c) (k1 c) (k2 c) r' in
  {| r := r'; t := t c; c1 := fst cs; c2 := snd cs; k1 := k1 c; k2 := k2 c;
     isTunneling := isTunneling c; transmissionProb := transmissionProb c |}.

Definition opposite (z : Complex) : Complex := Cx.sub {| re := 0; im := 0 |} z.

(** ** Parameter sets used as instances *)

(** The tunneling preset of the spec: [E = 4.5], [V0 = 6], [L = 1.2], [m = 1]. *)
Definition presetTunneling : SimulationParams :=
  {| energy := 4.5; barrierHeight := 6; barrierWidth := 1.2; mass := 1 |}.

(** The scattering preset of the spec: [E = 7], [V0 = 5], [L = 1.5], [m = 1]. *)
Definition presetScattering : SimulationParams :=
  {| energy := 7; barrierHeight := 5; barrierWidth := 1.5; mass := 1 |}.


(** A tunneling case reachable from the sliders, with [k1 = kappa = 1] and
    [L = 1]: [E = 0.5], [V0 = 1], [L = 1], [m = 1]. *)
Definition halfBarrier : SimulationParams :=
  {| energy := 0.5; barrierHeight := 1; barrierWidth := 1; mass := 1 |}.

(** ** The renderer's marks (QuantumCanvas.tsx, lines 39, 51 and 71)

    [height] is [canvas.height]. *)




(** ** The controls (Controls.tsx, src/unnamed/part_000): [handleChange] and
    the preset buttons *)

(** [keyof SimulationParams] *)
Inductive ParamKey : Type := KEnergy | KBarrierHeight | KBarrierWidth | KMass.

Definition getParam (key : ParamKey) (p : SimulationParams) : R :=
  match key with
  | KEnergy => energy p
  | KBarrierHeight => barrierHeight p
  | KBarrierWidth => barrierWidth p
  | KMass => mass p
  end.

(** The updater [prev => ({ ...prev, [key]: value })]. *)
Definition handleChange (key : ParamKey) (value : R) (prev : SimulationParams)
  : SimulationParams :=
  match key with
  | KEnergy =>
      {| energy := value; barrierHeight := barrierHeight prev;
         barrierWidth := barrierWidth prev; mass := mass prev |}
  | KBarrierHeight =>
      {| energy := energy prev; barrierHeight := value;
         barrierWidth := barrierWidth prev; mass := mass prev |}
  | KBarrierWidth =>
      {| energy := energy prev; barrierHeight := barrierHeight prev;
         barrierWidth := value; mass := mass prev |}
  | KMass =>
      {| energy := energy prev; barrierHeight := barrierHeight prev;
         barrierWidth := barrierWidth prev; mass := value |}
  end.

(** The updaters of the three preset buttons. *)
Definition clickTunneling (p : SimulationParams) : SimulationParams :=
  {| energy := 4; barrierHeight := 6; barrierWidth := 1.0; mass := mass p |}.

Definition clickTransmission (p : SimulationParams) : SimulationParams :=
  {| energy := 7; barrierHeight := 5; barrierWidth := 1.5; mass := mass p |}.

Definition clickBlock (p : SimulationParams) : SimulationParams :=
  {| energy := 4; barrierHeight := 10; barrierWidth := 2.0; mass := mass p |}.

(** ** The binary64 reading

    The same source, line for line, over IEEE binary64 numbers: Rocq's
    primitive floats, whose [+ - * /], [sqrt], [abs] and comparisons are
    the IEEE operations with rounding to nearest, and whose decimal
    literals denote the nearest binary64 value, as in JavaScript. *)

Module B64.
Import PrimFloat.
Local Open Scope float_scope.
#[local] Set Warnings "-inexact-float".

(** The functions of [Math] that ECMAScript leaves to the implementation.
    [Math.sqrt] and [Math.abs] are the IEEE operations [sqrt] and [abs]. *)
Record MathLib : Type := mkMathLib {
  Math_sin : float -> float;
  Math_cos : float -> float;
  Math_sinh : float -> float;
  Math_cosh : float -> float;
  Math_exp : float -> float;
  Math_pow : float -> float -> float
}.

(** The results ECMAScript fixes exactly, at the arguments used below. *)
Record Conforms (M : MathLib) : Prop := mkConforms {
  sin_zero : Math_sin M 0 = 0;
  sin_neg_zero : Math_sin M neg_zero = neg_zero;
  sin_infinity : Math_sin M infinity = nan;
  sin_neg_infinity : Math_sin M neg_infinity = nan;
  cos_zero : Math_cos M 0 = 1;
  cos_neg_zero : Math_cos M neg_zero = 1;
  cos_infinity : Math_cos M infinity = nan;
  cos_neg_infinity : Math_cos M neg_infinity = nan;
  sinh_zero : Math_sinh M 0 = 0;
  sinh_infinity : Math_sinh M infinity = infinity;
  cosh_zero : Math_cosh M 0 = 1;
  cosh_infinity : Math_cosh M infinity = infinity;
  exp_zero : Math_exp M 0 = 1;
  exp_neg_zero : Math_exp M neg_zero = 1;
  pow_nan_2 : Math_pow M nan 2 = nan;
  pow_infinity_2 : Math_pow M infinity 2 = infinity;
  pow_zero_2 : Math_pow M 0 2 = 0
}.

(** Complex helpers (physics.ts, lines 4-20) *)
Record Complex : Type := mkComplex { re : float; im : float }.

Definition add (a b : Complex) : Complex :=
  {| re := re a + re b; im := im a + im b |}.

Definition sub (a b : Complex) : Complex :=
  {| re := re a - re b; im := im a - im b |}.

Definition mul (a b : Complex) : Complex :=
  {| re := re a * re b - im a * im b; im := re a * im b + im a * re b |}.

Definition div (a b : Complex) : Complex :=
  let denom := re b * re b + im b * im b in
  if denom =? 0 then {| re := 0; im := 0 |}
  else {| re := (re a * re b + im a * im b) / denom;
          im := (im a * re b - re a * im b) / denom |}.

Definition exp (M : MathLib) (a : Complex) : Complex :=
  let ea := Math_exp M (re a) in
  {| re := ea * Math_cos M (im a); im := ea * Math_sin M (im a) |}.

Record SimulationParams : Type := mkParams {
  energy : float;
  barrierHeight : float;
  barrierWidth : float;
  mass : float
}.

Record WaveCoefficients : Type := mkCoeffs {
  r : Complex;
  t : Complex;
  c1 : Complex;
  c2 : Complex;
  k1 : float;
  k2 : float;
  isTunneling : bool;
  transmissionProb : float
}.

(** The test of line 27. *)
Definition guardTest (E V0 : float) : bool := abs (E - V0) <? 1e-4.

Definition perturbedEnergy (E V0 : float) : float :=
  if guardTest E V0 then E + 1e-3 else E.

Definition hbar : float := 1.

(** solveSchrodinger (physics.ts, lines 23-124) *)
Definition solveSchrodinger (M : MathLib) (params : SimulationParams)
  : WaveCoefficients :=
  let V0 := barrierHeight params in
  let L := barrierWidth params in
  let m := mass params in
  let E := perturbedEnergy (energy params) V0 in
  let k1 := sqrt (2 * m * E) / hbar in
  if E <? V0 then
    let kappa := sqrt (2 * m * (V0 - E)) / hbar in
    let term :=
      (V0 * V0 * Math_pow M (Math_sinh M (kappa * L)) 2) / (4 * E * (V0 - E)) in
    let T_prob := 1 / (1 + term) in
    let kappaL := kappa * L in
    let coshKL := Math_cosh M kappaL in
    let sinhKL := Math_sinh M kappaL in
    let gamma := (k1 * k1 - kappa * kappa) / (2 * k1 * kappa) in
    let D := {| re := coshKL; im := - gamma * sinhKL |} in
    let num := {| re := Math_cos M (- k1 * L); im := Math_sin M (- k1 * L) |} in
    let t := div num D in
    let gamma_plus := (kappa * kappa + k1 * k1) / (2 * k1 * kappa) in
    let r_num := {| re := 0; im := gamma_plus * sinhKL |} in
    let r := div r_num D in
    let onePlusR := add {| re := 1; im := 0 |} r in
    let term2 :=
      mul {| re := 0; im := k1 / kappa |} (sub {| re := 1; im := 0 |} r) in
    let twoC2 := add onePlusR term2 in
    let twoC1 := sub onePlusR term2 in
    let c2 := {| re := re twoC2 / 2; im := im twoC2 / 2 |} in
    let c1 := {| re := re twoC1 / 2; im := im twoC1 / 2 |} in
    {| r := r; t := t; c1 := c1; c2 := c2; k1 := k1; k2 := kappa;
       isTunneling := true; transmissionProb := T_prob |}
  else
    let k_prime := sqrt (2 * m * (E - V0)) / hbar in
    let T_prob :=
      if k_prime =? 0 then 0
      else
        let term :=
          (V0 * V0 * Math_pow M (Math_sin M (k_prime * L)) 2)
          / (4 * E * (E - V0)) in
        1 / (1 + term) in
    let kL := k_prime * L in
    let cosKL := Math_cos M kL in
    let sinKL := Math_sin M kL in
    let gamma := (k1 * k1 + k_prime * k_prime) / (2 * k1 * k_prime) in
    let D := {| re := cosKL; im := - gamma * sinKL |} in
    let num_t := {| re := Math_cos M (- k1 * L); im := Math_sin M (- k1 * L) |} in
    let t := div num_t D in
    let gamma_minus := (k1 * k1 - k_prime * k_prime) / (2 * k1 * k_prime) in
    let num_r := {| re := 0; im := gamma_minus * sinKL |} in
    let r := div num_r D in
    let term2 :=
      mul {| re := k1 / k_prime; im := 0 |} (sub {| re := 1; im := 0 |} r) in
    let onePlusR := add {| re := 1; im := 0 |} r in
    let twoC1 := add onePlusR term2 in
    let twoC2 := sub onePlusR term2 in
    let c1 := {| re := re twoC1 / 2; im := im twoC1 / 2 |} in
    let c2 := {| re := re twoC2 / 2; im := im twoC2 / 2 |} in
    {| r := r; t := t; c1 := c1; c2 := c2; k1 := k1; k2 := k_prime;
       isTunneling := false; transmissionProb := T_prob |}.

Record Sample : Type := mkSample { real : float; prob : float; V : float }.

(** getWaveFunctionAt (physics.ts, lines 126-177) *)
Definition getWaveFunctionAt (M : MathLib) (x time : float)
  (params : SimulationParams) (coeffs : WaveCoefficients) : Sample :=
  let L := barrierWidth params in
  let V0 := barrierHeight params in
  let omega := energy params in
  let timePhase :=
    {| re := Math_cos M (- omega * time); im := Math_sin M (- omega * time) |} in
  let '(psi, V) :=
    if x <? 0 then
      let inc := {| re := Math_cos M (k1 coeffs * x);
                    im := Math_sin M (k1 coeffs * x) |} in
      let refArg := - k1 coeffs * x in
      let refPart :=
        mul (r coeffs) {| re := Math_cos M refArg; im := Math_sin M refArg |} in
      (add inc refPart, 0)
    else if (0 <=? x) && (x <=? L) then
      if isTunneling coeffs then
        let term1 :=
          mul (c1 coeffs) {| re := Math_exp M (- k2 coeffs * x); im := 0 |} in
        let term2 :=
          mul (c2 coeffs) {| re := Math_exp M (k2 coeffs * x); im := 0 |} in
        (add term1 term2, V0)
      else
        let arg1 := k2 coeffs * x in
        let term1 :=
          mul (c1 coeffs) {| re := Math_cos M arg1; im := Math_sin M arg1 |} in
        let arg2 := - k2 coeffs * x in
        let term2 :=
          mul (c2 coeffs) {| re := Math_cos M arg2; im := Math_sin M arg2 |} in
        (add term1 term2, V0)
    else
      let arg := k1 coeffs * x in
      let transPart :=
        mul (t coeffs) {| re := Math_cos M arg; im := Math_sin M arg |} in
      (transPart, 0) in
  let psiT := mul psi timePhase in
  {| real := re psiT;
     prob := re psiT * re psiT + im psiT * im psiT;
     V := V |}.

(** The input domain, as comparisons of binary64 numbers. *)
Definition valid (p : SimulationParams) : bool :=
  (0 <? energy p) && (0 <=? barrierHeight p)
  && (0 <? barrierWidth p) && (0 <? mass p).

Definition normSq (z : Complex) : float := re z * re z + im z * im z.



(** A library that answers where ECMAScript fixes the result and with [nan]
    elsewhere: it shows that the clauses of [Conforms] are consistent. *)
Definition specialValues : MathLib :=
  {| Math_sin := fun x => if is_zero x then x else nan;
     Math_cos := fun x => if is_zero x then 1 else nan;
     Math_sinh := fun x => if is_zero x || is_infinity x then x else nan;
     Math_cosh := fun x =>
       if is_zero x then 1 else if is_infinity x then infinity else nan;
     Math_exp := fun x =>
       if is_zero x then 1
       else if is_infinity x then (if x <? 0 then 0 else infinity) else nan;
     Math_pow := fun x y =>
       if is_zero x then 0 else if is_infinity x then infinity else nan |}.







End B64.

(** * Basic facts *)

(** ** Comparisons *)

Lemma ltb_true (a b : R) : a < b -> ltb a b = true.
Proof. intros H; unfold ltb; destruct (Rlt_dec a b); [reflexivity | contradiction]. Qed.

Lemma ltb_false (a b : R) : ~ a < b -> ltb a b = false.
Proof. intros H; unfold ltb; destruct (Rlt_dec a b); [contradiction | reflexivity]. Qed.

Lemma ltb_spec (a b : R) : ltb a b = true <-> a < b.
Proof.
  unfold ltb; destruct (Rlt_dec a b); split; intros; try assumption;
    try reflexivity; try discriminate; contradiction.
Qed.

Lemma leb_true (a b : R) : a <= b -> leb a b = true.
Proof. intros H; unfold leb; destruct (Rle_dec a b); [reflexivity | contradiction]. Qed.

Lemma leb_false (a b : R) : ~ a <= b -> leb a b = false.
Proof. intros H; unfold leb; destruct (Rle_dec a b); [contradiction | reflexivity]. Qed.

Lemma geb_true (a b : R) : a >= b -> geb a b = true.
Proof. intros H; unfold geb; destruct (Rge_dec a b); [reflexivity | contradiction]. Qed.


Lemma eqb_false (a b : R) : a <> b -> eqb a b = false.
Proof. intros H; unfold eqb; destruct (Req_dec_T a b); [contradiction | reflexivity]. Qed.

(** ** Complex numbers *)

Lemma Complex_eq (a b : Complex) : re a = re b -> im a = im b -> a = b.
Proof. destruct a, b; simpl; intros -> ->; reflexivity. Qed.

Lemma normSq_nonneg (z : Complex) : 0 <= normSq z.
Proof. unfold normSq; nra. Qed.

Lemma normSq_zero (z : Complex) : normSq z = 0 -> re z = 0 /\ im z = 0.
Proof. unfold normSq; intros H; split; nra. Qed.

Lemma normSq_mul (a b : Complex) : normSq (Cx.mul a b) = normSq a * normSq b.
Proof. unfold normSq, Cx.mul; simpl; ring. Qed.

Lemma div_nonzero (a b : Complex) :
  normSq b <> 0 ->
  Cx.div a b =
  {| re := (re a * re b + im a * im b) / normSq b;
     im := (im a * re b - re a * im b) / normSq b |}.
Proof.
  intros H; unfold Cx.div; fold (normSq b); rewrite (eqb_false _ _ H); reflexivity.
Qed.


Lemma normSq_cis (x : R) : normSq {| re := cos x; im := sin x |} = 1.
Proof.
  unfold normSq; simpl. generalize (sin2_cos2 x); unfold Rsqr; lra.
Qed.

(** ** Hyperbolic functions *)

Lemma cosh2_sinh2 (x : R) : cosh x * cosh x - sinh x * sinh x = 1.
Proof.
  unfold cosh, sinh.
  assert (H : Rtrigo_def.exp x * Rtrigo_def.exp (- x) = 1)
    by (rewrite <- exp_plus, Rplus_opp_r; apply exp_0).
  nra.
Qed.

(** ** The degeneracy guard *)

Lemma perturbedEnergy_engaged (E V0 : R) :
  Rabs (E - V0) < 1e-4 -> perturbedEnergy E V0 = E + 1e-3.
Proof. intros H; unfold perturbedEnergy; rewrite (ltb_true _ _ H); reflexivity. Qed.

Lemma perturbedEnergy_idle (E V0 : R) :
  ~ Rabs (E - V0) < 1e-4 -> perturbedEnergy E V0 = E.
Proof. intros H; unfold perturbedEnergy; rewrite (ltb_false _ _ H); reflexivity. Qed.

Lemma perturbedEnergy_ge (E V0 : R) : E <= perturbedEnergy E V0.
Proof.
  unfold perturbedEnergy, ltb; destruct (Rlt_dec (Rabs (E - V0)) 1e-4); lra.
Qed.

(** After the guard the energy is never within [9e-4] of the barrier height
    once the guard has fired, and never equal to it in any case. *)
Lemma perturbedEnergy_apart (E V0 : R) : perturbedEnergy E V0 <> V0.
Proof.
  unfold perturbedEnergy, ltb; destruct (Rlt_dec (Rabs (E - V0)) 1e-4) as [H | H].
  - apply Rabs_def2 in H; lra.
  - intros ->; apply H; unfold Rminus; rewrite Rplus_opp_r, Rabs_R0; lra.
Qed.

(** ** Wave numbers *)

Lemma wavenumber_pos (m u : R) : 0 < m -> 0 < u -> 0 < sqrt (2 * m * u) / hbar.
Proof.
  intros Hm Hu; unfold hbar, Rdiv; rewrite Rinv_1, Rmult_1_r.
  apply sqrt_lt_R0; nra.
Qed.


(** ** The two ratios of wave numbers

    [gamma] and [gamma_plus] of the tunneling branch, [gamma] and
    [gamma_minus] of the scattering branch, for wave numbers [k] outside and
    [q] inside the barrier. *)




(** ** Amplitudes over a denominator [D = c - i g s]

    Both branches build [t] and [r] by dividing by
    [D = {re: c, im: -g*s}].  Whenever [|D|^2 = 1 + term] and the numerator of
    [r] has squared modulus [term], the closed-form probability
    [1 / (1 + term)] is [|t|^2] and complements [|r|^2]. *)

Section Amplitudes.
Variables c s g gp term : R.
Variable num : Complex.
Hypothesis Hnum : normSq num = 1.
Hypothesis HD : c * c + (g * s) * (g * s) = 1 + term.
Hypothesis Hr : (gp * s) * (gp * s) = term.

Local Abbreviation D := ({| re := c; im := - g * s |}).







End Amplitudes.

(** ** The two branches of the solver on valid parameters *)

Section Solver.
Variable p : SimulationParams.
Hypothesis Hvalid : valid p.

Local Abbreviation E := (effEnergy p).
Local Abbreviation V0 := (barrierHeight p).
Local Abbreviation L := (barrierWidth p).
Local Abbreviation m := (mass p).

Lemma effEnergy_pos : 0 < effEnergy p.
Proof.
  destruct Hvalid as (HE & _).
  generalize (perturbedEnergy_ge (energy p) (barrierHeight p)).
  unfold effEnergy; lra.
Qed.

Lemma effEnergy_cases : effEnergy p < barrierHeight p \/ barrierHeight p < effEnergy p.
Proof.
  generalize (perturbedEnergy_apart (energy p) (barrierHeight p)).
  unfold effEnergy; lra.
Qed.




End Solver.

(** * Properties of the solver *)

Lemma presetTunneling_valid : valid presetTunneling.
Proof. unfold valid, presetTunneling; simpl; lra. Defined.








(** C6. On valid parameters [isTunneling] is the outcome of the comparison
    [E' < V0] at the energy [E'] left by the guard, and the interior wave
    number [k2] is the one of the branch so selected. *)
Theorem isTunneling_classifies (p : SimulationParams) :
  valid p ->
  let c := solveSchrodinger p in
  let E' := perturbedEnergy (energy p) (barrierHeight p) in
  isTunneling c = ltb E' (barrierHeight p)
  /\ (isTunneling c = true <-> E' < barrierHeight p)
  /\ (E' < barrierHeight p ->
      k2 c = sqrt (2 * mass p * (barrierHeight p - E')) / hbar)
  /\ (~ E' < barrierHeight p ->
      k2 c = sqrt (2 * mass p * (E' - barrierHeight p)) / hbar).
Proof.
  intros _ c E'; unfold c, solveSchrodinger; fold E'.
  destruct (ltb E' (barrierHeight p)) eqn:Hb; cbv zeta; cbn [isTunneling k2].
  - apply ltb_spec in Hb.
    repeat split; try reflexivity; try (intros; assumption).
    intros Hn; contradiction.
  - assert (Hn : ~ E' < barrierHeight p)
      by (intros H; apply ltb_spec in H; rewrite H in Hb; discriminate).
    repeat split; try reflexivity.
    + intros H; discriminate.
    + intros H; contradiction.
    + intros H; contradiction.
Qed.

Lemma isTunneling_classifies_witness :
  valid presetTunneling
  /\ isTunneling (solveSchrodinger presetTunneling)
     = ltb (perturbedEnergy (energy presetTunneling) (barrierHeight presetTunneling))
           (barrierHeight presetTunneling).
Proof.
  split; [exact presetTunneling_valid |].
  exact (proj1 (isTunneling_classifies presetTunneling presetTunneling_valid)).
Defined.

(** * Properties of the sampler *)

Lemma normSq_timePhase (time : R) (p : SimulationParams) :
  normSq (timePhase time p) = 1.
Proof. unfold timePhase; apply normSq_cis. Qed.



(** * The tunneling branch with equal wave numbers

    When the exterior wave number and the decay constant coincide
    ([2 m E' = 2 m (V0 - E')], i.e. [E' = V0 / 2]) the coefficients take a
    closed form in [tanh (q L)]. *)

Lemma cosh_pos (x : R) : 0 < cosh x.
Proof.
  unfold cosh; generalize (exp_pos x) (exp_pos (- x)); lra.
Qed.

Lemma symmetric_tunneling (p : SimulationParams) (q : R) :
  0 < q ->
  effEnergy p < barrierHeight p ->
  sqrt (2 * mass p * effEnergy p) / hbar = q ->
  sqrt (2 * mass p * (barrierHeight p - effEnergy p)) / hbar = q ->
  let L := barrierWidth p in
  let th := sinh (q * L) / cosh (q * L) in
  let c := solveSchrodinger p in
  r c = {| re := 0; im := th |}
  /\ t c = {| re := cos (- q * L) / cosh (q * L); im := sin (- q * L) / cosh (q * L) |}
  /\ c1 c = {| re := (1 - th) / 2; im := (th - 1) / 2 |}
  /\ c2 c = {| re := (1 + th) / 2; im := (1 + th) / 2 |}
  /\ k1 c = q /\ k2 c = q /\ isTunneling c = true.
Proof.
  intros Hq Hlt Hk Hka L th c.
  unfold c, solveSchrodinger; fold (effEnergy p).
  rewrite (ltb_true _ _ Hlt); cbv zeta.
  cbn [r t c1 c2 k1 k2 isTunneling].
  rewrite Hk, Hka; fold L.
  replace ((q * q - q * q) / (2 * q * q)) with 0 by (field; lra).
  replace ((q * q + q * q) / (2 * q * q)) with 1 by (field; lra).
  replace (q / q) with 1 by (field; lra).
  rewrite Ropp_0, Rmult_0_l, Rmult_1_l.
  generalize (cosh_pos (q * L)); intros Hch.
  assert (HD : normSq {| re := cosh (q * L); im := 0 |} <> 0).
  { unfold normSq; simpl; nra. }
  rewrite !(div_nonzero _ _ HD).
  unfold th, Cx.add, Cx.sub, Cx.mul, normSq; simpl.
  repeat split; try reflexivity; apply Complex_eq; simpl; field; lra.
Qed.

Lemma wavenumber_of_square (u q : R) : 0 <= q -> u = q * q -> sqrt u / hbar = q.
Proof.
  intros Hq ->; rewrite (sqrt_square q Hq); unfold hbar; field.
Qed.

(** * Far to the left of the barrier *)










(** * Continuity across the interfaces *)

Lemma Cmod_le_sum (z : Complex) : Cmod z <= Rabs (re z) + Rabs (im z).
Proof.
  unfold Cmod.
  apply Rsqr_incr_0_var.
  - rewrite Rsqr_sqrt by apply normSq_nonneg.
    unfold normSq, Rsqr.
    generalize (Rabs_pos (re z)) (Rabs_pos (im z)); intros Ha Hb.
    replace (re z * re z) with (Rabs (re z) * Rabs (re z))
      by (generalize (Rsqr_abs (re z)); unfold Rsqr; intros ->; reflexivity).
    replace (im z * im z) with (Rabs (im z) * Rabs (im z))
      by (generalize (Rsqr_abs (im z)); unfold Rsqr; intros ->; reflexivity).
    nra.
  - generalize (Rabs_pos (re z)) (Rabs_pos (im z)); lra.
Qed.

Lemma abs_re_le_Cmod (z : Complex) : Rabs (re z) <= Cmod z.
Proof.
  unfold Cmod; rewrite <- sqrt_Rsqr_abs.
  apply sqrt_le_1_alt; unfold normSq, Rsqr; nra.
Qed.

Lemma abs_im_le_Cmod (z : Complex) : Rabs (im z) <= Cmod z.
Proof.
  unfold Cmod; rewrite <- sqrt_Rsqr_abs.
  apply sqrt_le_1_alt; unfold normSq, Rsqr; nra.
Qed.

Lemma continuous_close (g : R -> Complex) (a eps : R) :
  continuity_pt (fun x => re (g x)) a ->
  continuity_pt (fun x => im (g x)) a ->
  0 < eps ->
  exists delta : R, 0 < delta /\
    forall x : R, x <> a -> Rabs (x - a) < delta -> Cmod (Cx.sub (g x) (g a)) < eps.
Proof.
  intros Hre Him Heps.
  assert (Hhalf : eps / 2 > 0) by lra.
  destruct (Hre (eps / 2) Hhalf) as (d1 & Hd1 & Hc1).
  destruct (Him (eps / 2) Hhalf) as (d2 & Hd2 & Hc2).
  exists (Rmin d1 d2); split; [apply Rmin_pos; lra |].
  intros x Hneq Hx.
  assert (Hdom : D_x no_cond a x) by (split; [exact I | intros Heq; apply Hneq; auto]).
  generalize (Hc1 x (conj Hdom (Rlt_le_trans _ _ _ Hx (Rmin_l d1 d2)))).
  generalize (Hc2 x (conj Hdom (Rlt_le_trans _ _ _ Hx (Rmin_r d1 d2)))).
  simpl; unfold Rdist; intros H2 H1.
  eapply Rle_lt_trans; [apply Cmod_le_sum |].
  unfold Cx.sub; simpl; lra.
Qed.

Lemma limit_from_above_continuous (f g : R -> Complex) (a : R) :
  (forall x : R, a < x -> f x = g x) ->
  continuity_pt (fun x => re (g x)) a ->
  continuity_pt (fun x => im (g x)) a ->
  limit_from_above f a (g a).
Proof.
  intros Hfg Hre Him eps Heps.
  destruct (continuous_close g a eps Hre Him Heps) as (d & Hd & Hc).
  exists d; split; [exact Hd |].
  intros x [Hlo Hhi]; rewrite (Hfg x Hlo).
  apply Hc; [lra | apply Rabs_def1; lra].
Qed.

Lemma limit_from_below_continuous (f g : R -> Complex) (a : R) :
  (forall x : R, x < a -> f x = g x) ->
  continuity_pt (fun x => re (g x)) a ->
  continuity_pt (fun x => im (g x)) a ->
  limit_from_below f a (g a).
Proof.
  intros Hfg Hre Him eps Heps.
  destruct (continuous_close g a eps Hre Him Heps) as (d & Hd & Hc).
  exists d; split; [exact Hd |].
  intros x [Hlo Hhi]; rewrite (Hfg x Hhi).
  apply Hc; [lra | apply Rabs_def1; lra].
Qed.

(** A one-sided limit is unique. *)
Lemma limit_from_above_unique (f : R -> Complex) (a : R) (l1 l2 : Complex) :
  limit_from_above f a l1 -> limit_from_above f a l2 -> l1 = l2.
Proof.
  intros H1 H2.
  assert (Hclose : forall eps, 0 < eps ->
            Rabs (re l1 - re l2) < 2 * eps /\ Rabs (im l1 - im l2) < 2 * eps).
  { intros eps Heps.
    destruct (H1 eps Heps) as (d1 & Hd1 & Hc1).
    destruct (H2 eps Heps) as (d2 & Hd2 & Hc2).
    set (x := a + Rmin d1 d2 / 2).
    assert (Hm : 0 < Rmin d1 d2) by (apply Rmin_pos; assumption).
    generalize (Rmin_l d1 d2) (Rmin_r d1 d2); intros Hl Hr.
    assert (Hx1 : a < x < a + d1) by (unfold x; lra).
    assert (Hx2 : a < x < a + d2) by (unfold x; lra).
    generalize (Hc1 x Hx1) (Hc2 x Hx2); intros G1 G2.
    generalize (abs_re_le_Cmod (Cx.sub (f x) l1)) (abs_im_le_Cmod (Cx.sub (f x) l1)).
    generalize (abs_re_le_Cmod (Cx.sub (f x) l2)) (abs_im_le_Cmod (Cx.sub (f x) l2)).
    unfold Cx.sub; simpl; intros A1 A2 A3 A4.
    split; apply Rabs_def1.
    - assert (B1 := Rabs_def2 _ _ (Rle_lt_trans _ _ _ A3 G1)).
      assert (B2 := Rabs_def2 _ _ (Rle_lt_trans _ _ _ A1 G2)). lra.
    - assert (B1 := Rabs_def2 _ _ (Rle_lt_trans _ _ _ A3 G1)).
      assert (B2 := Rabs_def2 _ _ (Rle_lt_trans _ _ _ A1 G2)). lra.
    - assert (B1 := Rabs_def2 _ _ (Rle_lt_trans _ _ _ A4 G1)).
      assert (B2 := Rabs_def2 _ _ (Rle_lt_trans _ _ _ A2 G2)). lra.
    - assert (B1 := Rabs_def2 _ _ (Rle_lt_trans _ _ _ A4 G1)).
      assert (B2 := Rabs_def2 _ _ (Rle_lt_trans _ _ _ A2 G2)). lra. }
  assert (Hzero : forall u : R, (forall eps, 0 < eps -> Rabs u < 2 * eps) -> u = 0).
  { intros u Hu.
    destruct (Req_dec u 0) as [-> | Hne]; [reflexivity | exfalso].
    assert (Hpos : 0 < Rabs u) by (apply Rabs_pos_lt; exact Hne).
    generalize (Hu (Rabs u / 2) ltac:(lra)); lra. }
  apply Complex_eq.
  - apply Rminus_diag_uniq, Hzero; intros eps Heps; apply (Hclose eps Heps).
  - apply Rminus_diag_uniq, Hzero; intros eps Heps; apply (Hclose eps Heps).
Qed.

(** ** The sampler by region *)

Lemma psiT_left (x time : R) (p : SimulationParams) (c : WaveCoefficients) :
  x < 0 -> psiT x time p c = Cx.mul (regionI c x) (timePhase time p).
Proof.
  intros Hx; unfold psiT, regionValue.
  rewrite (ltb_true _ _ Hx); reflexivity.
Qed.

Lemma psiT_right (x time : R) (p : SimulationParams) (c : WaveCoefficients) :
  0 <= barrierWidth p -> barrierWidth p < x ->
  psiT x time p c = Cx.mul (regionIII c x) (timePhase time p).
Proof.
  intros HL Hx; unfold psiT, regionValue.
  rewrite (ltb_false x 0) by lra.
  rewrite (leb_false x (barrierWidth p)) by lra.
  rewrite andb_false_r; reflexivity.
Qed.

Lemma psiT_interior (x time : R) (p : SimulationParams) (c : WaveCoefficients) :
  0 <= x <= barrierWidth p ->
  psiT x time p c =
  Cx.mul
    (if isTunneling c then
       Cx.add (Cx.mul (c1 c) {| re := Rtrigo_def.exp (- k2 c * x); im := 0 |})
              (Cx.mul (c2 c) {| re := Rtrigo_def.exp (k2 c * x); im := 0 |})
     else
       Cx.add (Cx.mul (c1 c) {| re := cos (k2 c * x); im := sin (k2 c * x) |})
              (Cx.mul (c2 c) {| re := cos (- k2 c * x); im := sin (- k2 c * x) |}))
    (timePhase time p).
Proof.
  intros [H0 HL]; unfold psiT, regionValue.
  rewrite (ltb_false x 0) by lra.
  rewrite (geb_true x 0) by lra.
  rewrite (leb_true x (barrierWidth p)) by lra.
  simpl; destruct (isTunneling c); reflexivity.
Qed.

Lemma limit_region_I (time : R) (p : SimulationParams) (c : WaveCoefficients) :
  limit_from_below (fun x => psiT x time p c) 0
    (Cx.mul (regionI c 0) (timePhase time p)).
Proof.
  apply (limit_from_below_continuous
           (fun x => psiT x time p c)
           (fun x => Cx.mul (regionI c x) (timePhase time p))).
  - intros x Hx; apply psiT_left; exact Hx.
  - unfold regionI, Cx.mul, Cx.add; simpl; reg.
  - unfold regionI, Cx.mul, Cx.add; simpl; reg.
Qed.

Lemma limit_region_III (time : R) (p : SimulationParams) (c : WaveCoefficients) :
  0 <= barrierWidth p ->
  limit_from_above (fun x => psiT x time p c) (barrierWidth p)
    (Cx.mul (regionIII c (barrierWidth p)) (timePhase time p)).
Proof.
  intros HL.
  apply (limit_from_above_continuous
           (fun x => psiT x time p c)
           (fun x => Cx.mul (regionIII c x) (timePhase time p))).
  - intros x Hx; apply psiT_right; assumption.
  - unfold regionIII, Cx.mul; simpl; reg.
  - unfold regionIII, Cx.mul; simpl; reg.
Qed.

(** ** The interface at [x = 0]

    The interior coefficients are built from [1 + r], so they sum to it and
    the interior value at [0] is the limit of region I: this interface is
    continuous in both branches. *)

Lemma coeffs_sum (p : SimulationParams) :
  let c := solveSchrodinger p in
  Cx.add (c1 c) (c2 c) = Cx.add {| re := 1; im := 0 |} (r c).
Proof.
  unfold solveSchrodinger.
  destruct (ltb (perturbedEnergy (energy p) (barrierHeight p)) (barrierHeight p));
    cbv zeta; cbn [c1 c2 r];
    match goal with |- context [Cx.div ?a ?b] => generalize (Cx.div a b) end;
    match goal with |- context [Cx.mul ?z (Cx.sub _ _)] => generalize z end;
    intros ratio rr; apply Complex_eq; unfold Cx.add, Cx.sub, Cx.mul; simpl; field.
Qed.

Lemma regionI_at_zero (c : WaveCoefficients) :
  regionI c 0 = Cx.add {| re := 1; im := 0 |} (r c).
Proof.
  unfold regionI; rewrite !Rmult_0_r, cos_0, sin_0.
  apply Complex_eq; unfold Cx.add, Cx.mul; simpl; ring.
Qed.

Lemma interior_at_zero (time : R) (p : SimulationParams) (c : WaveCoefficients) :
  0 <= barrierWidth p ->
  psiT 0 time p c = Cx.mul (Cx.add (c1 c) (c2 c)) (timePhase time p).
Proof.
  intros HL; rewrite psiT_interior by lra.
  rewrite !Rmult_0_r, exp_0, cos_0, sin_0.
  f_equal; destruct (isTunneling c);
    apply Complex_eq; unfold Cx.add, Cx.mul; simpl; ring.
Qed.

Lemma interface_zero_continuous (time : R) (p : SimulationParams) :
  valid p ->
  let c := solveSchrodinger p in
  limit_from_below (fun x => psiT x time p c) 0 (psiT 0 time p c).
Proof.
  intros (_ & _ & HL & _) c.
  rewrite interior_at_zero by lra.
  unfold c; rewrite coeffs_sum, <- regionI_at_zero.
  apply limit_region_I.
Qed.

(** ** The interface at [x = L] *)

Lemma halfBarrier_valid : valid halfBarrier.
Proof. unfold valid, halfBarrier; simpl; lra. Defined.

Lemma halfBarrier_effEnergy : effEnergy halfBarrier = 0.5.
Proof.
  unfold effEnergy, halfBarrier; simpl.
  apply perturbedEnergy_idle; intros H; apply Rabs_def2 in H; lra.
Qed.

Lemma halfBarrier_coeffs :
  let c := solveSchrodinger halfBarrier in
  let th := sinh 1 / cosh 1 in
  t c = {| re := cos (- (1)) / cosh 1; im := sin (- (1)) / cosh 1 |}
  /\ c1 c = {| re := (1 - th) / 2; im := (th - 1) / 2 |}
  /\ c2 c = {| re := (1 + th) / 2; im := (1 + th) / 2 |}
  /\ k1 c = 1 /\ k2 c = 1 /\ isTunneling c = true.
Proof.
  assert (Hlt : effEnergy halfBarrier < barrierHeight halfBarrier)
    by (rewrite halfBarrier_effEnergy; simpl; lra).
  assert (Hk : sqrt (2 * mass halfBarrier * effEnergy halfBarrier) / hbar = 1)
    by (rewrite halfBarrier_effEnergy; apply wavenumber_of_square; simpl; lra).
  assert (Hka : sqrt (2 * mass halfBarrier *
                      (barrierHeight halfBarrier - effEnergy halfBarrier)) / hbar = 1)
    by (rewrite halfBarrier_effEnergy; apply wavenumber_of_square; simpl; lra).
  destruct (symmetric_tunneling halfBarrier 1 ltac:(lra) Hlt Hk Hka)
    as (_ & Ht & Hc1 & Hc2 & Hk1 & Hk2 & Htun).
  simpl in Ht, Hc1, Hc2.
  rewrite Rmult_1_r in Ht.
  rewrite Rmult_1_l in Ht, Hc1, Hc2.
  intros c th; unfold c, th.
  repeat split; assumption.
Qed.

Lemma sinh_1_lower : 3 / 4 < sinh 1.
Proof.
  unfold sinh.
  assert (He : 2 < Rtrigo_def.exp 1) by (generalize (exp_ineq1 1); lra).
  assert (Hp : Rtrigo_def.exp 1 * Rtrigo_def.exp (- (1)) = 1)
    by (rewrite <- exp_plus, Rplus_opp_r; apply exp_0).
  generalize (exp_pos (- (1))); intros Hi.
  assert (Hi2 : Rtrigo_def.exp (- (1)) < 1 / 2) by nra.
  lra.
Qed.

Lemma sub_mul_distr (a b ph : Complex) :
  Cx.sub (Cx.mul a ph) (Cx.mul b ph) = Cx.mul (Cx.sub a b) ph.
Proof. apply Complex_eq; unfold Cx.sub, Cx.mul; simpl; ring. Qed.

(** The imaginary part of the jump at [x = L = 1]: the interior value has
    imaginary part [2 sinh 1], the transmitted wave [t e^{i k1 L}] is real. *)
Lemma halfBarrier_jump_im :
  let c := solveSchrodinger halfBarrier in
  im (Cx.sub
        (Cx.add (Cx.mul (c1 c) {| re := Rtrigo_def.exp (- k2 c * 1); im := 0 |})
                (Cx.mul (c2 c) {| re := Rtrigo_def.exp (k2 c * 1); im := 0 |}))
        (regionIII c 1))
  = 2 * sinh 1.
Proof.
  intros c; unfold regionIII.
  destruct halfBarrier_coeffs as (Ht & Hc1 & Hc2 & Hk1 & Hk2 & _); fold c in Ht, Hc1, Hc2, Hk1, Hk2.
  rewrite Ht, Hc1, Hc2, Hk1, Hk2.
  rewrite Rmult_1_r, Rmult_1_l, cos_neg, sin_neg.
  unfold Cx.sub, Cx.add, Cx.mul; simpl.
  unfold sinh, cosh.
  generalize (exp_pos 1) (exp_pos (- (1))); intros He Hi.
  field; lra.
Qed.

(** C4 (the code at a failing input).  At [halfBarrier], for every time, the
    wavefunction of [getWaveFunctionAt] has a limit from above at [x = L],
    and the interior value at [x = L] is more than [1] away from it in
    modulus: the interface at [x = L] is not continuous. *)
Theorem interface_L_jump (time : R) :
  let p := halfBarrier in
  let c := solveSchrodinger p in
  valid p
  /\ exists l : Complex,
       limit_from_above (fun x => psiT x time p c) (barrierWidth p) l
       /\ 1 < Cmod (Cx.sub (psiT (barrierWidth p) time p c) l).
Proof.
  intros p c; split; [exact halfBarrier_valid |].
  exists (Cx.mul (regionIII c (barrierWidth p)) (timePhase time p)).
  split; [apply limit_region_III; simpl; lra |].
  rewrite psiT_interior by (simpl; lra).
  destruct halfBarrier_coeffs as (_ & _ & _ & _ & _ & Htun); fold p c in Htun.
  rewrite Htun, sub_mul_distr.
  unfold Cmod; rewrite normSq_mul, normSq_timePhase, Rmult_1_r.
  rewrite <- sqrt_1 at 1; apply sqrt_lt_1_alt.
  generalize halfBarrier_jump_im; fold p c; cbv zeta; intros Him.
  change (barrierWidth p) with 1.
  generalize sinh_1_lower; intros Hs.
  unfold normSq at 1; rewrite Him.
  match goal with |- _ <= _ < ?a * ?a + _ => generalize (Rle_0_sqr a); unfold Rsqr end.
  nra.
Qed.

(** * The sign of the reflection amplitude

    The jump at [x = L] comes from the sign of [r] alone.  With the opposite
    amplitude [-r], and the interior coefficients rebuilt from it by the
    recipe of the solver, the interior value at [x = L] is the transmitted
    wave [t e^{i k1 L}], in both branches. *)

Lemma interiorCoeffs_solver (p : SimulationParams) :
  let c := solveSchrodinger p in
  interiorCoeffs (isTunneling c) (k1 c) (k2 c) (r c) = (c1 c, c2 c).
Proof.
  unfold solveSchrodinger.
  destruct (ltb (perturbedEnergy (energy p) (barrierHeight p)) (barrierHeight p));
    reflexivity.
Qed.

Lemma withReflection_same (p : SimulationParams) :
  withReflection (solveSchrodinger p) (r (solveSchrodinger p)) = solveSchrodinger p.
Proof.
  unfold withReflection.
  generalize (interiorCoeffs_solver p); cbv zeta; intros ->.
  destruct (solveSchrodinger p); reflexivity.
Qed.

Lemma exp_cosh_plus_sinh (x : R) : Rtrigo_def.exp x = cosh x + sinh x.
Proof. unfold cosh, sinh; field. Qed.

Lemma exp_cosh_minus_sinh (x : R) : Rtrigo_def.exp (- x) = cosh x - sinh x.
Proof. unfold cosh, sinh; field. Qed.

Lemma tunneling_opposite_sign (k q ch sh C S : R) :
  0 < k -> 0 < q -> ch * ch - sh * sh = 1 -> C * C + S * S = 1 ->
  let gamma := (k * k - q * q) / (2 * k * q) in
  let gamma_plus := (q * q + k * k) / (2 * k * q) in
  let D := {| re := ch; im := - gamma * sh |} in
  let cs :=
    interiorCoeffs true k q
      (opposite (Cx.div {| re := 0; im := gamma_plus * sh |} D)) in
  Cx.add (Cx.mul (fst cs) {| re := ch - sh; im := 0 |})
         (Cx.mul (snd cs) {| re := ch + sh; im := 0 |})
  = Cx.mul (Cx.div {| re := C; im := - S |} D) {| re := C; im := S |}.
Proof.
  intros Hk Hq Hh Ht gamma gamma_plus D cs.
  assert (Hkq : 0 < k * q) by nra.
  assert (Hch : 1 <= ch * ch) by nra.
  assert (HD : normSq D <> 0) by (unfold normSq, D; simpl; nra).
  unfold cs, interiorCoeffs, opposite; rewrite !(div_nonzero _ _ HD).
  unfold D, gamma, gamma_plus, normSq, Cx.add, Cx.sub, Cx.mul; simpl.
  assert (Hside : ch * ch * (2 * k * q * (2 * k * q)) +
                  - (k * k - q * q) * sh * (- (k * k - q * q) * sh) <> 0).
  { apply Rgt_not_eq.
    assert (H0 : 0 < 2 * k * q * (2 * k * q)) by nra.
    assert (H1 : 0 < ch * ch * (2 * k * q * (2 * k * q)))
      by (apply Rmult_lt_0_compat; lra).
    generalize (Rle_0_sqr ((k * k - q * q) * sh)); unfold Rsqr; lra. }
  apply Complex_eq; simpl; field_simplify_eq;
    try (repeat split; try lra; exact Hside);
    clear - Hh Ht; simpl; nsatz.
Qed.

Lemma scattering_opposite_sign (k q c s C S : R) :
  0 < k -> 0 < q -> c * c + s * s = 1 -> C * C + S * S = 1 ->
  let gamma := (k * k + q * q) / (2 * k * q) in
  let gamma_minus := (k * k - q * q) / (2 * k * q) in
  let D := {| re := c; im := - gamma * s |} in
  let cs :=
    interiorCoeffs false k q
      (opposite (Cx.div {| re := 0; im := gamma_minus * s |} D)) in
  Cx.add (Cx.mul (fst cs) {| re := c; im := s |})
         (Cx.mul (snd cs) {| re := c; im := - s |})
  = Cx.mul (Cx.div {| re := C; im := - S |} D) {| re := C; im := S |}.
Proof.
  intros Hk Hq Hh Ht gamma gamma_minus D cs.
  assert (Hkq : 0 < k * q) by nra.
  assert (Hg : 1 <= gamma * gamma).
  { unfold gamma.
    replace ((k * k + q * q) / (2 * k * q) * ((k * k + q * q) / (2 * k * q)))
      with (1 + ((k * k - q * q) / (2 * k * q)) * ((k * k - q * q) / (2 * k * q)))
      by (field; lra).
    generalize (Rle_0_sqr ((k * k - q * q) / (2 * k * q))); unfold Rsqr; lra. }
  assert (HD : normSq D <> 0) by (unfold normSq, D; simpl; nra).
  unfold cs, interiorCoeffs, opposite; rewrite !(div_nonzero _ _ HD).
  assert (Hside : c * c * (2 * k * q * (2 * k * q)) +
                  - (k * k + q * q) * s * (- (k * k + q * q) * s) <> 0).
  { intros Habs; apply HD; unfold normSq, D, gamma; simpl.
    apply (Rmult_eq_reg_r (2 * k * q * (2 * k * q))); [| nra].
    rewrite Rmult_0_l, <- Habs; field; lra. }
  unfold D, gamma, gamma_minus, normSq, Cx.add, Cx.sub, Cx.mul; simpl.
  apply Complex_eq; simpl; field_simplify_eq;
    try (repeat split; try lra; exact Hside);
    clear - Hh Ht; simpl; nsatz.
Qed.

Lemma tunneling_fields (p : SimulationParams) :
  effEnergy p < barrierHeight p ->
  let c := solveSchrodinger p in
  let k := sqrt (2 * mass p * effEnergy p) / hbar in
  let kappa := sqrt (2 * mass p * (barrierHeight p - effEnergy p)) / hbar in
  let L := barrierWidth p in
  let D := {| re := cosh (kappa * L);
              im := - ((k * k - kappa * kappa) / (2 * k * kappa)) * sinh (kappa * L) |} in
  r c = Cx.div {| re := 0;
                  im := (kappa * kappa + k * k) / (2 * k * kappa) * sinh (kappa * L) |} D
  /\ t c = Cx.div {| re := cos (- k * L); im := sin (- k * L) |} D
  /\ k1 c = k /\ k2 c = kappa /\ isTunneling c = true.
Proof.
  intros Hlt; unfold solveSchrodinger; fold (effEnergy p).
  rewrite (ltb_true _ _ Hlt); repeat split; reflexivity.
Qed.

Lemma scattering_fields (p : SimulationParams) :
  barrierHeight p < effEnergy p ->
  let c := solveSchrodinger p in
  let k := sqrt (2 * mass p * effEnergy p) / hbar in
  let k_prime := sqrt (2 * mass p * (effEnergy p - barrierHeight p)) / hbar in
  let L := barrierWidth p in
  let D := {| re := cos (k_prime * L);
              im := - ((k * k + k_prime * k_prime) / (2 * k * k_prime))
                    * sin (k_prime * L) |} in
  r c = Cx.div {| re := 0;
                  im := (k * k - k_prime * k_prime) / (2 * k * k_prime)
                        * sin (k_prime * L) |} D
  /\ t c = Cx.div {| re := cos (- k * L); im := sin (- k * L) |} D
  /\ k1 c = k /\ k2 c = k_prime /\ isTunneling c = false.
Proof.
  intros Hgt; unfold solveSchrodinger; fold (effEnergy p).
  rewrite (ltb_false (effEnergy p) (barrierHeight p)) by lra.
  repeat split; reflexivity.
Qed.

Lemma cos2_sin2 (x : R) : cos x * cos x + sin x * sin x = 1.
Proof. generalize (sin2_cos2 x); unfold Rsqr; lra. Qed.

Lemma opposite_reflection_matches (time : R) (p : SimulationParams) :
  valid p ->
  let c' := withReflection (solveSchrodinger p) (opposite (r (solveSchrodinger p))) in
  psiT (barrierWidth p) time p c'
  = Cx.mul (regionIII c' (barrierWidth p)) (timePhase time p).
Proof.
  intros Hv c'.
  assert (Hm : 0 < mass p) by (destruct Hv as (_ & _ & _ & H); exact H).
  assert (HL : 0 < barrierWidth p) by (destruct Hv as (_ & _ & H & _); exact H).
  generalize (effEnergy_pos p Hv); intros HE.
  rewrite psiT_interior by lra; f_equal.
  unfold c', withReflection, regionIII; cbn [isTunneling c1 c2 k1 k2 t].
  destruct (effEnergy_cases p) as [Hlt | Hgt].
  - destruct (tunneling_fields p Hlt) as (-> & -> & -> & -> & ->).
    set (k := sqrt (2 * mass p * effEnergy p) / hbar).
    set (kappa := sqrt (2 * mass p * (barrierHeight p - effEnergy p)) / hbar).
    replace (- kappa * barrierWidth p) with (- (kappa * barrierWidth p)) by ring.
    replace (- k * barrierWidth p) with (- (k * barrierWidth p)) by ring.
    rewrite exp_cosh_minus_sinh, exp_cosh_plus_sinh, cos_neg, sin_neg.
    apply (tunneling_opposite_sign k kappa
             (cosh (kappa * barrierWidth p)) (sinh (kappa * barrierWidth p))
             (cos (k * barrierWidth p)) (sin (k * barrierWidth p))).
    + apply wavenumber_pos; assumption.
    + apply wavenumber_pos; [assumption | lra].
    + apply cosh2_sinh2.
    + apply cos2_sin2.
  - destruct (scattering_fields p Hgt) as (-> & -> & -> & -> & ->).
    set (k := sqrt (2 * mass p * effEnergy p) / hbar).
    set (k_prime := sqrt (2 * mass p * (effEnergy p - barrierHeight p)) / hbar).
    replace (- k_prime * barrierWidth p) with (- (k_prime * barrierWidth p)) by ring.
    replace (- k * barrierWidth p) with (- (k * barrierWidth p)) by ring.
    rewrite !cos_neg, !sin_neg.
    apply (scattering_opposite_sign k k_prime
             (cos (k_prime * barrierWidth p)) (sin (k_prime * barrierWidth p))
             (cos (k * barrierWidth p)) (sin (k * barrierWidth p))).
    + apply wavenumber_pos; assumption.
    + apply wavenumber_pos; [assumption | lra].
    + apply cos2_sin2.
    + apply cos2_sin2.
Qed.

(** With the opposite amplitude the interface at [x = L] is continuous. *)
Lemma opposite_reflection_continuous (time : R) (p : SimulationParams) :
  valid p ->
  let c' := withReflection (solveSchrodinger p) (opposite (r (solveSchrodinger p))) in
  limit_from_above (fun x => psiT x time p c') (barrierWidth p)
    (psiT (barrierWidth p) time p c').
Proof.
  intros Hv c'; unfold c'.
  rewrite (opposite_reflection_matches time p Hv).
  apply limit_region_III; destruct Hv as (_ & _ & H & _); lra.
Qed.

(** * The guard at the literal [6.0001]

    In exact arithmetic [6.0001 - 6] is [1e-4], which the strict test of the
    guard rejects.  The binary64 number nearest to [6.0001] is
    [1688878007761607 / 2^48], slightly below it, and there the guard fires. *)

Lemma guard_idle_at_decimal_literal : perturbedEnergy 6.0001 6 = 6.0001.
Proof.
  apply perturbedEnergy_idle; intros H; apply Rabs_def2 in H; lra.
Qed.

Lemma guard_fires_at_binary64_literal :
  perturbedEnergy (1688878007761607 / 281474976710656) 6
  = 1688878007761607 / 281474976710656 + 1e-3.
Proof.
  apply perturbedEnergy_engaged, Rabs_def1; lra.
Qed.

(** * Further properties *)

Lemma isTunneling_iff (p : SimulationParams) :
  isTunneling (solveSchrodinger p) = true
  <-> energy p <= barrierHeight p - 1e-4.
Proof.
  unfold solveSchrodinger.
  destruct (ltb (perturbedEnergy (energy p) (barrierHeight p)) (barrierHeight p))
    eqn:Hb; cbv zeta; cbn [isTunneling].
  - apply ltb_spec in Hb; split; [intros _ | reflexivity].
    revert Hb; unfold perturbedEnergy, ltb.
    destruct (Rlt_dec (Rabs (energy p - barrierHeight p)) 1e-4) as [H | H];
      intros Hb.
    + apply Rabs_def2 in H; lra.
    + destruct (Rle_dec (energy p) (barrierHeight p - 1e-4)) as [Hle | Hn];
        [exact Hle | exfalso; apply H, Rabs_def1; lra].
  - split; [discriminate | intros Hle; exfalso].
    assert (Hidle : ~ Rabs (energy p - barrierHeight p) < 1e-4)
      by (intros H; apply Rabs_def2 in H; lra).
    rewrite (perturbedEnergy_idle _ _ Hidle) in Hb.
    rewrite ltb_true in Hb by lra; discriminate.
Qed.





(** * The controls *)

(** X23. [handleChange] is a field update: the changed key reads back the
    new value, every other key keeps its value, a second change of the same
    key overrides the first, changes of different keys commute, and writing
    back the current value changes nothing. *)
Theorem handleChange_update (k k' : ParamKey) (v v' : R) (p : SimulationParams) :
  getParam k (handleChange k v p) = v
  /\ (k <> k' -> getParam k' (handleChange k v p) = getParam k' p)
  /\ handleChange k v' (handleChange k v p) = handleChange k v' p
  /\ (k <> k' ->
      handleChange k v (handleChange k' v' p)
      = handleChange k' v' (handleChange k v p))
  /\ handleChange k (getParam k p) p = p.
Proof.
  repeat split.
  - destruct k; reflexivity.
  - intros Hne; destruct k, k'; try reflexivity; contradiction Hne; reflexivity.
  - destruct k; reflexivity.
  - intros Hne; destruct k, k'; try reflexivity; contradiction Hne; reflexivity.
  - destruct k, p; reflexivity.
Qed.

Lemma handleChange_update_witness :
  KEnergy <> KBarrierWidth
  /\ getParam KBarrierWidth (handleChange KEnergy 3 presetTunneling)
     = getParam KBarrierWidth presetTunneling.
Proof.
  assert (Hne : KEnergy <> KBarrierWidth) by discriminate.
  split; [exact Hne |].
  exact (proj1 (proj2 (handleChange_update KEnergy KBarrierWidth 3 0
                         presetTunneling)) Hne).
Defined.

(** X24. Each preset button, pressed in any state with positive mass, gives
    valid parameters in the regime its label names, keeps the mass and
    discards the previous slider values: "Tunneling" and "Block" take the
    tunneling branch, "Transmission" the scattering branch. *)
Theorem preset_buttons (p : SimulationParams) :
  0 < mass p ->
  (valid (clickTunneling p)
   /\ isTunneling (solveSchrodinger (clickTunneling p)) = true)
  /\ (valid (clickTransmission p)
      /\ isTunneling (solveSchrodinger (clickTransmission p)) = false)
  /\ (valid (clickBlock p)
      /\ isTunneling (solveSchrodinger (clickBlock p)) = true)
  /\ mass (clickTunneling p) = mass p
  /\ mass (clickTransmission p) = mass p
  /\ mass (clickBlock p) = mass p
  /\ forall (k : ParamKey) (v : R), k <> KMass ->
       clickTunneling (handleChange k v p) = clickTunneling p
       /\ clickTransmission (handleChange k v p) = clickTransmission p
       /\ clickBlock (handleChange k v p) = clickBlock p.
Proof.
  intros Hm.
  assert (Hfalse : isTunneling (solveSchrodinger (clickTransmission p)) = false).
  { destruct (isTunneling (solveSchrodinger (clickTransmission p))) eqn:H;
      [| reflexivity].
    apply isTunneling_iff in H; simpl in H; lra. }
  repeat split; try reflexivity; try exact Hfalse;
    try (unfold valid; simpl; lra);
    try (apply isTunneling_iff; simpl; lra);
    destruct k; try reflexivity; contradiction H; reflexivity.
Qed.

Lemma preset_buttons_witness :
  0 < mass presetScattering
  /\ isTunneling (solveSchrodinger (clickBlock presetScattering)) = true.
Proof.
  assert (Hm : 0 < mass presetScattering) by (simpl; lra).
  split; [exact Hm |].
  exact (proj2 (proj1 (proj2 (proj2 (preset_buttons presetScattering Hm))))).
Defined.

(** * Exact division *)


(** * The code in binary64 *)

Section Binary64.
Import PrimFloat.
Local Open Scope float_scope.
#[local] Set Warnings "-inexact-float".

(** The clauses of [Conforms] can be met. *)
Lemma specialValues_conforms : B64.Conforms B64.specialValues.
Proof. constructor; reflexivity. Qed.










(** The guard at the binary64 value of the literal [6.0001]. *)
Lemma guard_fires_at_6_0001 :
  B64.guardTest 6.0001 6 = true
  /\ B64.perturbedEnergy 6.0001 6 = 6.0001 + 1e-3.
Proof. split; reflexivity. Qed.

End Binary64.


